(** * mbed-ls on Mac OS X: board detection (lstools_darwin.py)

    A shallow embedding of [MbedLsToolsDarwin]: the values that [plistlib]
    hands to the detection code, the board-name pattern, the USB topology
    filter, the registry walk and [list_mbeds], followed by the properties
    of the design document that can be stated about them. *)

From Stdlib Require Import ZArith Ascii String List Lia Bool.
From stdpp Require Import base option gmap strings list.

Set Warnings "-register-all,-clear-no-such-hyp".

Local Open Scope string_scope.
Local Open Scope list_scope.
Local Open Scope Z_scope.

(** ** Python values *)

Module Py.

(** The exceptions the modelled code can meet. *)
Inductive exn : Set := TypeError | KeyError | AttributeError.

(** A computation either returns or raises. *)
Inductive result (A : Type) : Type :=
| Ok (a : A)
| Raise (e : exn).
Arguments Ok {A} a.
Arguments Raise {A} e.

#[export] Instance result_ret : MRet result := fun A a => Ok a.
#[export] Instance result_bind : MBind result := fun A B f m =>
  match m with Ok a => f a | Raise e => Raise e end.

Definition returns {A} (m : result A) : bool :=
  match m with Ok _ => true | Raise _ => false end.

(** What [plistlib.readPlist] produces, plus [None]: strings (Python 2
    byte strings), numbers (a plist boolean is the integer 0 or 1),
    arrays, and dictionaries with string keys.  A dictionary is kept as
    the list of its items in iteration order. *)
Inductive RawTree : Type :=
| PNone
| PStr (s : string)
| PInt (z : Z)
| PList (l : list RawTree)
| PDict (d : list (string * RawTree)).

(** [d[k]] on the items of a dictionary. *)
Fixpoint assoc {A} (k : string) (d : list (string * A)) : option A :=
  match d with
  | [] => None
  | (k', v) :: d' => if String.eqb k k' then Some v else assoc k d'
  end.

(** [k in d] on the items of a dictionary. *)
Definition has_key {A} (k : string) (d : list (string * A)) : bool :=
  match assoc k d with Some _ => true | None => false end.

(** [a == b]: structural on lists, by key on dictionaries. *)
Fixpoint py_eq (a b : RawTree) : bool :=
  match a, b with
  | PNone, PNone => true
  | PStr s, PStr t => String.eqb s t
  | PInt x, PInt y => Z.eqb x y
  | PList l, PList m =>
      (fix go (l m : list RawTree) : bool :=
         match l, m with
         | [], [] => true
         | x :: l', y :: m' => py_eq x y && go l' m'
         | _, _ => false
         end) l m
  | PDict d, PDict e =>
      Nat.eqb (length d) (length e) &&
      (fix go (d : list (string * RawTree)) : bool :=
         match d with
         | [] => true
         | (k, v) :: d' =>
             match assoc k e with
             | Some w => py_eq v w
             | None => false
             end && go d'
         end) d
  | _, _ => false
  end.

(** [sub in s] on two strings. *)
Fixpoint substring_of (sub s : string) : bool :=
  String.prefix sub s ||
  match s with
  | EmptyString => false
  | String _ s' => substring_of sub s'
  end.

(** [k in c] for a string [k]: key of a dictionary, element of a list,
    substring of a string; [None] and numbers are not iterable. *)
Definition py_in (k : string) (c : RawTree) : result bool :=
  match c with
  | PDict d => Ok (has_key k d)
  | PList l => Ok (existsb (py_eq (PStr k)) l)
  | PStr s => Ok (substring_of k s)
  | PInt _ | PNone => Raise TypeError
  end.

(** [c[k]] for a string [k]: only a dictionary can be indexed by a string. *)
Definition py_getitem (c : RawTree) (k : string) : result RawTree :=
  match c with
  | PDict d => match assoc k d with Some v => Ok v | None => Raise KeyError end
  | _ => Raise TypeError
  end.

Fixpoint chars (s : string) : list RawTree :=
  match s with
  | EmptyString => []
  | String a s' => PStr (String a EmptyString) :: chars s'
  end.

(** [for x in c]: the elements of a list, the keys of a dictionary, the
    characters of a string. *)
Definition py_iter (c : RawTree) : result (list RawTree) :=
  match c with
  | PList l => Ok l
  | PDict d => Ok (map (fun kv => PStr (fst kv)) d)
  | PStr s => Ok (chars s)
  | PInt _ | PNone => Raise TypeError
  end.

(** Truth value of an object in an [if]. *)
Definition truthy (v : RawTree) : bool :=
  match v with
  | PNone => false
  | PStr s => negb (String.eqb s "")
  | PInt z => negb (Z.eqb z 0)
  | PList l => match l with [] => false | _ => true end
  | PDict d => match d with [] => false | _ => true end
  end.

Definition isinstance_dict (v : RawTree) : bool :=
  match v with PDict _ => true | _ => false end.

(** [s[:n]] on a string. *)
Fixpoint str_take (n : nat) (s : string) : string :=
  match n, s with
  | S n', String a s' => String a (str_take n' s')
  | _, _ => EmptyString
  end.

(** Keys of the dictionaries the detection code builds itself: any
    hashable value, that is [None], a string or a number. *)
Inductive key : Set :=
| KNone
| KStr (s : string)
| KInt (z : Z).

#[export] Instance key_eq_dec : EqDecision key.
Proof. solve_decision. Defined.

#[export] Instance key_countable : Countable key.
Proof.
  refine (inj_countable'
    (fun k => match k with
              | KNone => inl ()
              | KStr s => inr (inl s)
              | KInt z => inr (inr z)
              end)
    (fun x => match x with
              | inl _ => KNone
              | inr (inl s) => KStr s
              | inr (inr z) => KInt z
              end) _).
  by intros [].
Defined.

(** [hash(v)] succeeds on [None], strings and numbers only. *)
Definition to_key (v : RawTree) : result key :=
  match v with
  | PNone => Ok KNone
  | PStr s => Ok (KStr s)
  | PInt z => Ok (KInt z)
  | PList _ | PDict _ => Raise TypeError
  end.

End Py.
Export Py.

(** ** The [re] module, as far as the board pattern uses it *)

Module Re.

(** Patterns built from literal characters, [\b], concatenation and [|]. *)
Inductive regex : Set :=
| Eps
| Chr (c : ascii)
| WordB
| Cat (r1 r2 : regex)
| Alt (r1 r2 : regex).

(** A run of literal characters. *)
Fixpoint lit (s : string) : regex :=
  match s with
  | EmptyString => Eps
  | String c s' => Cat (Chr c) (lit s')
  end.

(** [\w] without [re.LOCALE] or [re.UNICODE]: [[a-zA-Z0-9_]]. *)
Definition is_word (c : ascii) : bool :=
  let n := nat_of_ascii c in
  ((48 <=? n) && (n <=? 57) || (65 <=? n) && (n <=? 90) ||
   (97 <=? n) && (n <=? 122) || (n =? 95))%nat.

(** Case folding of [re.I] on byte strings: ASCII letters only. *)
Definition lower (c : ascii) : ascii :=
  let n := nat_of_ascii c in
  if ((65 <=? n) && (n <=? 90))%nat then ascii_of_nat (n + 32) else c.

Definition chr_eq (ignorecase : bool) (a c : ascii) : bool :=
  if ignorecase then Ascii.eqb (lower a) (lower c) else Ascii.eqb a c.

Definition word_before (prev : option ascii) : bool :=
  match prev with Some c => is_word c | None => false end.

Definition word_after (s : string) : bool :=
  match s with String c _ => is_word c | EmptyString => false end.

(** All the ways [r] can match at a position: [prev] is the character
    just before the position, [s] the text from the position on; each
    outcome is the position where the match ends. *)
Fixpoint rmatch (ignorecase : bool) (r : regex) (prev : option ascii) (s : string)
  : list (option ascii * string) :=
  match r with
  | Eps => [(prev, s)]
  | Chr c =>
      match s with
      | String a s' => if chr_eq ignorecase a c then [(Some a, s')] else []
      | EmptyString => []
      end
  | WordB => if xorb (word_before prev) (word_after s) then [(prev, s)] else []
  | Cat r1 r2 =>
      flat_map (fun ps => rmatch ignorecase r2 (fst ps) (snd ps))
               (rmatch ignorecase r1 prev s)
  | Alt r1 r2 => rmatch ignorecase r1 prev s ++ rmatch ignorecase r2 prev s
  end.

Fixpoint search_from (ignorecase : bool) (r : regex) (prev : option ascii) (s : string) : bool :=
  match rmatch ignorecase r prev s with
  | _ :: _ => true
  | [] =>
      match s with
      | EmptyString => false
      | String a s' => search_from ignorecase r (Some a) s'
      end
  end.

(** A compiled pattern: the expression and its [re.I] flag. *)
Record pattern : Set := compile { expr : regex; flag_I : bool }.

(** [p.search(s)] as a truth value: is there a match anywhere in [s]. *)
Definition search (p : pattern) (s : string) : bool :=
  search_from (flag_I p) (expr p) None s.

End Re.
Export Re.

(** ** MbedLsToolsDarwin *)

(** [re.compile(r'(\bmbed\b|\bSEGGER MSD\b)', re.I)] *)
Definition mbed_volume_name_match : pattern :=
  compile (Alt (Cat WordB (Cat (lit "mbed") WordB))
               (Cat WordB (Cat (lit "SEGGER MSD") WordB)))
          true.

(** [mbed_volume_name_match.search(v)] on a value: [re] accepts strings
    only. *)
Definition search_value (v : RawTree) : result bool :=
  match v with
  | PStr s => Ok (search mbed_volume_name_match s)
  | _ => Raise TypeError
  end.

(** *** Tree navigation *)

Definition IORegistryEntryChildren : string := "IORegistryEntryChildren".

(** [has_children(obj, child_key)]: the test names the registry key
    itself, whatever [child_key] is. *)
Definition has_children (obj : RawTree) (child_key : string) : result bool :=
  match obj with
  | PNone => Ok false
  | _ => py_in "IORegistryEntryChildren" obj
  end.

Definition get_children (obj : RawTree) (child_key : string) : result RawTree :=
  c ← has_children obj child_key;
  if c : bool then py_getitem obj child_key else Ok PNone.

(** *** The USB topology filter *)

(** Code that appends to the list [r] of the enclosing call and may raise:
    what was appended before an exception stays appended. *)
Definition collect (A : Type) : Type :=
  list RawTree → list RawTree * result A.

#[export] Instance collect_ret : MRet collect := fun A a r => (r, Ok a).
#[export] Instance collect_bind : MBind collect := fun A B f m r =>
  match m r with
  | (r', Ok a) => f a r'
  | (r', Raise e) => (r', Raise e)
  end.

Definition lift {A} (m : result A) : collect A := fun r => (r, m).
Definition r_extend (l : list RawTree) : collect unit := fun r => (r ++ l, Ok ()).
Definition r_append (x : RawTree) : collect unit := fun r => (r ++ [x], Ok ()).

(** [try: body / except: continue] *)
Definition try_except (body : collect unit) : collect unit :=
  fun r => (fst (body r), Ok ()).

(** [return r] at the end of a call that started with [r = []]. *)
Definition run (body : collect unit) : result (list RawTree) :=
  match body [] with
  | (r, Ok _) => Ok r
  | (_, Raise e) => Raise e
  end.

Section Loops.
Context {A : Type} (body : A → collect unit).

(** [for x in l: body] *)
Fixpoint for_each (l : list A) : collect unit :=
  match l with
  | [] => mret ()
  | x :: l' => _ ← body x; for_each l'
  end.

(** [for x in filter(lambda k: k == k0, o.keys()): body], where the body
    reads [o[k0]]; the items of a dictionary have distinct keys, so
    [o[k0]] is the value stored with [x]. *)
Fixpoint for_key (k0 : string) (d : list (string * A)) : collect unit :=
  match d with
  | [] => mret ()
  | (k, v) :: d' =>
      _ ← (if String.eqb k k0 then body v else mret ());
      for_key k0 d'
  end.
End Loops.

(** [a += ' ' + b]: [b] must be a string; a string [a] is extended, a list
    [a] receives the characters, anything else raises. *)
Definition iadd_space (a b : RawTree) : result RawTree :=
  match b with
  | PStr t =>
      match a with
      | PStr s => Ok (PStr (s +:+ " " +:+ t))
      | PList l => Ok (PList (l ++ chars (" " +:+ t)))
      | _ => Raise TypeError
      end
  | _ => Raise TypeError
  end.

Section VisitItem.
(** The recursive call [filter_system_profiler(i)]. *)
Variable rec : RawTree → result (list RawTree).

(** The body of [for i in o['_items']]. *)
Definition visit_item (i : RawTree) : collect unit :=
  nested ← lift (py_in "_items" i);
  _ ← (if nested : bool then sub ← lift (rec i); r_extend sub else mret ());
  search_term ← lift (py_getitem i "_name");
  has_manufacturer ← lift (py_in "manufacturer" i);
  search_term ← (if has_manufacturer : bool
                 then m ← lift (py_getitem i "manufacturer");
                      lift (iadd_space search_term m)
                 else mret search_term);
  found ← lift (search_value search_term);
  has_bsd ← (if found : bool then lift (py_in "bsd_name" i) else mret false);
  if has_bsd : bool then r_append i else mret ().
End VisitItem.

(** [for i in v: ...] with [v = o['_items']].  Whatever is not a list
    yields strings (the keys of a dictionary, the characters of a string)
    or cannot be iterated; on a string the recursive call raises at
    [o.keys()] (lemma [filter_system_profiler_str] below). *)
Definition for_items (rec : RawTree → result (list RawTree)) (v : RawTree) : collect unit :=
  match v with
  | PList l => for_each (visit_item rec) l
  | _ =>
      l ← lift (py_iter v);
      for_each (visit_item (fun _ => Raise AttributeError)) l
  end.

(** The body of a call, given the treatment [visit] of one element [o] of
    [obj]: a value that is not a list is wrapped into one. *)
Definition fsp_with (visit : RawTree → collect unit) (obj : RawTree) : result (list RawTree) :=
  run (match obj with
       | PList l => for_each visit l
       | _ => visit obj
       end).

(** The body of [for o in obj]: [o.keys()] exists on dictionaries only. *)
Fixpoint visit_obj (o : RawTree) : collect unit :=
  match o with
  | PDict d =>
      for_key (fun v => try_except (for_items (fsp_with visit_obj) v)) "_items" d
  | _ => lift (Raise AttributeError)
  end.

Definition filter_system_profiler (obj : RawTree) : result (list RawTree) :=
  fsp_with visit_obj obj.

(** [get_disk_id]: the test made on one entry [dev] of the topology
    matches; [Some v] stands for [return v]. *)
Definition disk_id_of (dev sn : RawTree) : result (option RawTree) :=
  has_serial ← py_in "serial_num" dev;
  has_bsd ← (if has_serial : bool then py_in "bsd_name" dev else Ok false);
  same ← (if has_bsd : bool
          then v ← py_getitem dev "serial_num"; Ok (py_eq v sn)
          else Ok false);
  if same : bool then v ← py_getitem dev "bsd_name"; Ok (Some v) else Ok None.

Fixpoint scan_disk_id (devs : list RawTree) (sn : RawTree) : result RawTree :=
  match devs with
  | [] => Ok PNone
  | dev :: devs' =>
      found ← disk_id_of dev sn;
      match found with
      | Some v => Ok v
      | None => scan_disk_id devs' sn
      end
  end.

(** [get_disk_id(obj, sn)]: the whole scan sits in one [try]; any exception
    ends it with [None]. *)
Definition get_disk_id (obj sn : RawTree) : RawTree :=
  match devs ← py_iter obj; scan_disk_id devs sn with
  | Ok v => v
  | Raise _ => PNone
  end.

(** *** The device correlator *)

Section Assoc.
Context {A B : Type} (f : A → B) (dflt : B).

(** [f (d[k])] when [k] is a key of [d], [dflt] otherwise. *)
Fixpoint assoc_with (k : string) (d : list (string * A)) : B :=
  match d with
  | [] => dflt
  | (k', v) :: d' => if String.eqb k k' then f v else assoc_with k d'
  end.
End Assoc.

(** [find_tty(obj)].  On a dictionary without dial-in device the search
    goes on in [obj['IORegistryEntryChildren']]; on anything else
    [get_children] can only return [None] or raise. *)
Fixpoint find_tty (obj : RawTree) : result RawTree :=
  match obj with
  | PDict d =>
      match assoc "IODialinDevice" d with
      | Some dialin => Ok dialin
      | None => assoc_with find_tty (Ok PNone) IORegistryEntryChildren d
      end
  | _ =>
      c ← has_children obj IORegistryEntryChildren;
      if c : bool
      then _ ← get_children obj IORegistryEntryChildren; Raise TypeError
      else Ok PNone
  end.

(** [usb_info = {'serial':, 'vendor_id':, 'product_id':, 'tty':}] *)
Record usb_info : Type := UsbInfo {
  serial : RawTree;
  vendor_id : RawTree;
  product_id : RawTree;
  tty : RawTree
}.

Definition name_key (k : string) : bool :=
  String.eqb k "IORegistryEntryName" || String.eqb k "kUSBVendorString" ||
  String.eqb k "USB Vendor Name".

Section Fold.
Context {A S : Type} (body : A → S → result S).

(** A loop whose body updates [s] or raises. *)
Fixpoint for_fold (l : list A) (s : S) : result S :=
  match l with
  | [] => Ok s
  | x :: l' => s' ← body x s; for_fold l' s'
  end.
End Fold.

(** What [set_mbed_devs] does at a node [obj = PDict d] one of whose name
    fields matches the pattern. *)
Definition record_match (mbed_drives : RawTree) (d : list (string * RawTree))
    (r : gmap key usb_info) : result (gmap key usb_info) :=
  let vendor := default PNone (assoc "idVendor" d) in
  let product := default PNone (assoc "idProduct" d) in
  match assoc "USB Serial Number" d with
  | Some sn =>
      dialin ← find_tty (PDict d);
      disk_id ← to_key (get_disk_id mbed_drives sn);
      Ok (<[disk_id := UsbInfo sn vendor product dialin]> r)
  | None => Ok r
  end.

(** [set_mbed_devs(obj)], with the map [r] of [get_mbed_volumes] passed
    along. *)
Fixpoint set_mbed_devs (mbed_drives : RawTree) (obj : RawTree)
    (r : gmap key usb_info) : result (gmap key usb_info) :=
  match obj with
  | PDict d =>
      for_fold (fun kv r =>
                  match snd kv with
                  | PDict _ => set_mbed_devs mbed_drives (snd kv) r
                  | v =>
                      if name_key (fst kv)
                      then m ← search_value v;
                           if m : bool then record_match mbed_drives d r else Ok r
                      else Ok r
                  end) d r
  | _ => Raise AttributeError
  end.

(** The end of [get_mbed_volumes]: [if serial_devs: for obj in serial_devs:
    set_mbed_devs(obj)], then [return r]. *)
Definition correlate (serial_devs mbed_drives : RawTree) : result (gmap key usb_info) :=
  if truthy serial_devs
  then objs ← py_iter serial_devs;
       for_fold (set_mbed_devs mbed_drives) objs ∅
  else Ok ∅.

(** *** list_mbeds *)

(** A board record is a Python dictionary; the module writes the keys
    below into it. *)
Abbreviation BoardRecord := (gmap key RawTree).

Definition mount_point : key := KStr "mount_point".
Definition serial_port : key := KStr "serial_port".
Definition target_id_k : key := KStr "target_id".
Definition platform_name_k : key := KStr "platform_name".
Definition target_id_usb_id : key := KStr "target_id_usb_id".
Definition target_id_mbed_htm : key := KStr "target_id_mbed_htm".

(** [d[k]] on a dictionary built by the module. *)
Definition dict_get {V} (d : gmap key V) (k : key) : result V :=
  match d !! k with Some v => Ok v | None => Raise KeyError end.

(** [k in d] *)
Definition dict_has {V} (d : gmap key V) (k : key) : bool :=
  bool_decide (is_Some (d !! k)).

Definition of_option (o : option string) : RawTree :=
  match o with Some s => PStr s | None => PNone end.

(** [target_id(usb_info)] *)
Definition target_id (u : usb_info) : RawTree :=
  match serial u with
  | PNone => PNone
  | sn => sn
  end.

(** [v[:4]]: strings and lists can be sliced. *)
Definition py_take4 (v : RawTree) : result RawTree :=
  match v with
  | PStr s => Ok (PStr (str_take 4 s))
  | PList l => Ok (PList (take 4 l))
  | PNone | PInt _ | PDict _ => Raise TypeError
  end.

Section ListMbeds.
(** [MbedLsToolsBase.manufacture_ids]: the vendor-id table of the base
    class, from four-character prefix to platform name. *)
Variable manufacture_ids : gmap string string.

(** [MbedLsToolsBase.get_mbed_htm_target_id(mount_point)]: the target id
    read from [mbed.htm] on the volume, or [None]. *)
Variable get_mbed_htm_target_id : string → option string.

(** [platform_name(target_id)]: a lookup that falls off the end of the
    function, hence returns [None], when the prefix is not in the table. *)
Definition platform_name (tid : RawTree) : result RawTree :=
  prefix ← py_take4 tid;
  match prefix with
  | PStr p => Ok (of_option (manufacture_ids !! p))
  | PList _ | PDict _ => Raise TypeError
  | PNone | PInt _ => Ok PNone
  end.

(** The base-class reader joins a path: strings only. *)
Definition read_htm (mp : RawTree) : result RawTree :=
  match mp with
  | PStr s => Ok (of_option (get_mbed_htm_target_id s))
  | _ => Raise TypeError
  end.

(** [set(volumes.keys()) & set(mounts.keys())] *)
Definition intersection (volumes : gmap key usb_info)
    (mounts : gmap key (option string)) : gset key :=
  dom volumes ∩ dom mounts.

(** [for key in intersection: valid_volumes[key] = volumes[key]] *)
Definition valid_volumes (volumes : gmap key usb_info)
    (mounts : gmap key (option string)) : result (gmap key usb_info) :=
  for_fold (fun k valid => u ← dict_get volumes k; Ok (<[k := u]> valid))
           (elements (intersection volumes mounts)) ∅.

(** One element of the list comprehension. *)
Definition board_record (volumes : gmap key usb_info)
    (mounts : gmap key (option string)) (v : key) : result BoardRecord :=
  mp ← dict_get mounts v;
  u ← dict_get volumes v;
  name ← platform_name (target_id u);
  Ok (<[platform_name_k := name]>
      (<[target_id_k := target_id u]>
       (<[serial_port := tty u]>
        (<[mount_point := of_option mp]> ∅)))).

Section MapM.
Context {A B : Type} (f : A → result B).
Fixpoint for_list (l : list A) : result (list B) :=
  match l with
  | [] => Ok []
  | x :: l' => y ← f x; ys ← for_list l'; Ok (y :: ys)
  end.
End MapM.

(** The body of [for i, _ in enumerate(result)], on [result[i]] and the
    flag. *)
Definition resolve_identity (rec : BoardRecord) (flag : Z) : result (BoardRecord * Z) :=
  if dict_has rec KNone then Ok (rec, -1)
  else
    mp ← dict_get rec mount_point;
    if truthy mp then
      htm_target_id ← read_htm mp;
      rec ← (if truthy htm_target_id then
               usb_id ← dict_get rec target_id_k;
               let rec := <[target_id_usb_id := usb_id]> rec in
               let rec := <[target_id_k := htm_target_id]> rec in
               prefix ← py_take4 htm_target_id;
               name ← platform_name prefix;
               Ok (<[platform_name_k := name]> rec)
             else Ok rec);
      Ok (<[target_id_mbed_htm := htm_target_id]> rec, flag)
    else Ok (rec, flag).

Fixpoint resolve_all (result : list BoardRecord) (flag : Z)
  : Py.result (list BoardRecord * Z) :=
  match result with
  | [] => Ok ([], flag)
  | rec :: rest =>
      '(rec', flag') ← resolve_identity rec flag;
      '(rest', flag'') ← resolve_all rest flag';
      Ok (rec' :: rest', flag'')
  end.

(** [list_mbeds], on what [get_mbed_volumes] and [get_mount_points]
    returned; the value is the list of records and [ERRORLEVEL_FLAG]. *)
Definition list_mbeds (volumes : gmap key usb_info)
    (mounts : gmap key (option string)) : result (list BoardRecord * Z) :=
  valid ← valid_volumes volumes mounts;
  result ← for_list (board_record volumes mounts) (elements (dom valid));
  resolve_all result 0.
End ListMbeds.

(** ** Vocabulary of the properties *)

(** [s.lower()] on ASCII letters. *)
Fixpoint lower_str (s : string) : string :=
  match s with
  | EmptyString => EmptyString
  | String a s' => String (lower a) (lower_str s')
  end.

(** The last character of [s], or [prev] when [s] is empty. *)
Fixpoint last_or (prev : option ascii) (s : string) : option ascii :=
  match s with
  | EmptyString => prev
  | String a s' => last_or (Some a) s'
  end.

(** [s] contains [w] as a whole word, whatever the case of its letters: an
    occurrence neither preceded nor followed by a word character. *)
Definition whole_word_in (w s : string) : Prop :=
  ∃ pre mid post,
    s = pre +:+ mid +:+ post ∧ lower_str mid = lower_str w ∧
    word_before (last_or None pre) = false ∧ word_after post = false.

(** The prefix of [s] that spells [w] up to case, and what follows it. *)
Fixpoint ci_strip (w s : string) : option (string * string) :=
  match w with
  | EmptyString => Some (EmptyString, s)
  | String c w' =>
      match s with
      | String a s' =>
          if Ascii.eqb (lower a) (lower c)
          then match ci_strip w' s' with
               | Some (mid, t) => Some (String a mid, t)
               | None => None
               end
          else None
      | EmptyString => None
      end
  end.

(** A word written in word characters at both ends. *)
Definition wordy (w : string) : Prop :=
  word_after w = true ∧ ∀ prev, word_before (last_or prev w) = true.

(** A mapping that contains the child-collection key. *)
Definition carries_children (node : RawTree) : Prop :=
  ∃ d, node = PDict d ∧ is_Some (assoc IORegistryEntryChildren d).

(** Nodes on which Python's [in] cannot be mistaken about the child key:
    [None], mappings, sequences none of whose elements is the key, and
    strings that do not contain it. *)
Definition plain_node (node : RawTree) : Prop :=
  match node with
  | PNone | PDict _ => True
  | PList l => existsb (py_eq (PStr IORegistryEntryChildren)) l = false
  | PStr s => substring_of IORegistryEntryChildren s = false
  | PInt _ => False
  end.

(** A topology entry with serial number [sn] and disk id [bsd]. *)
Definition matching_entry (sn bsd : RawTree) (d : list (string * RawTree)) : Prop :=
  ∃ v, assoc "serial_num" d = Some v ∧ py_eq v sn = true ∧
       assoc "bsd_name" d = Some bsd.

(** A mapping that lacks one of the two fields or carries another serial
    number. *)
Definition skipped_entry (sn : RawTree) (dev : RawTree) : Prop :=
  ∃ d, dev = PDict d ∧
    (assoc "serial_num" d = None ∨ assoc "bsd_name" d = None ∨
     ∃ v, assoc "serial_num" d = Some v ∧ py_eq v sn = false).

(** An entry that is no container at all: [None] or a number. *)
Definition opaque_entry (dev : RawTree) : Prop :=
  dev = PNone ∨ ∃ z, dev = PInt z.







(** The record produced for the disk id [k]: its mount point and serial
    port are those that the mount table and the correlated-device map hold
    for [k]. *)
Definition record_of (volumes : gmap key usb_info) (mounts : gmap key (option string))
    (k : key) (rec : BoardRecord) : Prop :=
  ∃ u mp, volumes !! k = Some u ∧ mounts !! k = Some mp ∧
          rec !! mount_point = Some (of_option mp) ∧
          rec !! serial_port = Some (tty u).

(** Every device that survives the intersection has a string as serial
    number. *)
Definition string_serials (volumes : gmap key usb_info) (mounts : gmap key (option string)) : Prop :=
  ∀ k u, volumes !! k = Some u → is_Some (mounts !! k) → ∃ s, serial u = PStr s.

(** The data of scenarios B and C: one board on [disk2s1], mounted at
    [/Volumes/MBED], and a vendor table that knows the prefix [0200]. *)
Definition scenario_ids : gmap string string := {[ "0200" := "KL25Z" ]}.

Definition scenario_htm (mp : string) : option string :=
  if String.eqb mp "/Volumes/MBED" then Some "0200ABCDEF" else None.

Definition scenario_volumes : gmap key usb_info :=
  {[ KStr "disk2s1" := UsbInfo (PStr "9999") PNone PNone (PStr "/dev/tty.usbmodem1") ]}.

Definition scenario_mounts : gmap key (option string) :=
  {[ KStr "disk2s1" := Some "/Volumes/MBED" ]}.

(** The record of scenario B, before the identity pass. *)
Definition scenario_record : BoardRecord :=
  <[platform_name_k := PNone]>
    (<[target_id_k := PStr "9999"]>
      (<[serial_port := PStr "/dev/tty.usbmodem1"]>
        (<[mount_point := PStr "/Volumes/MBED"]> ∅))).

(** A topology node that is a mapping without [_name] field. *)
Definition lacks_name (i : RawTree) : Prop :=
  ∃ d, i = PDict d ∧ assoc "_name" d = None.

(** The body of the loop over an [_items] list raises on the node [i]. *)
Definition item_raises (i : RawTree) : Prop :=
  ∃ e, snd (visit_item filter_system_profiler i []) = Raise e.

(** A collecting computation only appends, and what it appends and
    whether it raises do not depend on the list it starts from. *)
Definition framed {A} (m : collect A) : Prop :=
  ∀ r, m r = (r ++ fst (m []), snd (m [])).

(** The topology entry of scenario B, and an entry without name. *)
Definition topology_entry : RawTree :=
  PDict [("_name", PStr "MBED"); ("serial_num", PStr "9999"); ("bsd_name", PStr "disk2s1")].

Definition nameless_entry : RawTree := PDict [("serial_num", PStr "1")].

(** ** Properties *)

Section Induction.


Lemma bind_Ok_l {A B} (a : A) (f : A → result B) : (Ok a ≫= f) = f a.
Proof. reflexivity. Qed.

End Induction.

Section Pattern.

#[local] Arguments String.append !_ _ / : simpl nomatch.

Lemma is_word_lower a : is_word (lower a) = is_word a.
Proof. destruct a as [[] [] [] [] [] [] [] []]; reflexivity. Qed.

Lemma append_assoc_s (a b c : string) : (a +:+ b) +:+ c = a +:+ b +:+ c.
Proof. induction a as [| x a IH]; simpl; [done | by f_equal]. Qed.

Lemma last_or_app prev a b : last_or prev (a +:+ b) = last_or (last_or prev a) b.
Proof. revert prev. induction a as [| x a IH]; intros prev; simpl; [done | apply IH]. Qed.

Lemma rmatch_lit w prev s :
  rmatch true (lit w) prev s =
  match ci_strip w s with
  | Some (mid, t) => [(last_or prev mid, t)]
  | None => []
  end.
Proof.
  revert prev s. induction w as [| c w IH]; intros prev s; [done |].
  simpl. destruct s as [| a s]; [done |].
  unfold chr_eq. destruct (Ascii.eqb (lower a) (lower c)); [| done].
  simpl. rewrite app_nil_r, IH. by destruct (ci_strip w s) as [[mid t] |].
Qed.

Lemma ci_strip_sound w s mid t :
  ci_strip w s = Some (mid, t) → s = mid +:+ t ∧ lower_str mid = lower_str w.
Proof.
  revert s mid. induction w as [| c w IH]; intros s mid; simpl.
  - by intros [= <- <-].
  - destruct s as [| a s]; [done |].
    destruct (Ascii.eqb_spec (lower a) (lower c)) as [Hac | Hac]; [| done].
    destruct (ci_strip w s) as [[mid' t'] |] eqn:Hw; [| done].
    intros [= <- <-]. apply IH in Hw as [-> Hmid']. simpl. by rewrite Hac, Hmid'.
Qed.

Lemma ci_strip_complete w mid t :
  lower_str mid = lower_str w → ci_strip w (mid +:+ t) = Some (mid, t).
Proof.
  revert mid. induction w as [| c w IH]; intros [| a mid]; simpl; try done.
  intros [= Hac Hmid]. rewrite Hac, Ascii.eqb_refl. by rewrite (IH mid Hmid).
Qed.

Lemma ci_strip_spec w s mid t :
  ci_strip w s = Some (mid, t) ↔ s = mid +:+ t ∧ lower_str mid = lower_str w.
Proof.
  split; [apply ci_strip_sound |]. intros [-> Hmid]. by apply ci_strip_complete.
Qed.

Lemma word_after_lower s : word_after (lower_str s) = word_after s.
Proof. destruct s as [| a s]; [done |]. simpl. apply is_word_lower. Qed.

Lemma word_before_last_lower prev prev' s :
  word_before prev = word_before prev' →
  word_before (last_or prev (lower_str s)) = word_before (last_or prev' s).
Proof.
  revert prev prev'. induction s as [| a s IH]; intros prev prev' Hp; simpl; [done |].
  apply IH. simpl. apply is_word_lower.
Qed.

Lemma wordy_same_case w mid :
  wordy w → lower_str mid = lower_str w → wordy mid.
Proof.
  intros [Hfirst Hlast] Hmid. split.
  - by rewrite <- word_after_lower, Hmid, word_after_lower.
  - intros prev.
    rewrite <- (word_before_last_lower prev prev mid eq_refl), Hmid.
    by rewrite (word_before_last_lower prev prev w eq_refl).
Qed.

Lemma word_after_app mid t : word_after mid = true → word_after (mid +:+ t) = true.
Proof. by destruct mid. Qed.

Lemma rmatch_cat r1 r2 prev s :
  rmatch true (Cat r1 r2) prev s =
  flat_map (fun ps => rmatch true r2 (fst ps) (snd ps)) (rmatch true r1 prev s).
Proof. reflexivity. Qed.

Lemma rmatch_wordb prev s :
  rmatch true WordB prev s =
  if xorb (word_before prev) (word_after s) then [(prev, s)] else [].
Proof. reflexivity. Qed.

Lemma rmatch_word_eq w prev s :
  rmatch true (Cat WordB (Cat (lit w) WordB)) prev s =
  if xorb (word_before prev) (word_after s)
  then match ci_strip w s with
       | Some (mid, t) =>
           if xorb (word_before (last_or prev mid)) (word_after t)
           then [(last_or prev mid, t)] else []
       | None => []
       end
  else [].
Proof.
  rewrite rmatch_cat, rmatch_wordb.
  destruct (xorb (word_before prev) (word_after s)); [| done].
  cbn [flat_map fst snd]. rewrite app_nil_r, rmatch_cat, rmatch_lit.
  destruct (ci_strip w s) as [[mid t] |]; [| done].
  cbn [flat_map fst snd]. by rewrite app_nil_r, rmatch_wordb.
Qed.

(** [\bw\b] at one position. *)
Lemma rmatch_word w prev s :
  wordy w →
  rmatch true (Cat WordB (Cat (lit w) WordB)) prev s ≠ [] ↔
  ∃ mid post, s = mid +:+ post ∧ lower_str mid = lower_str w ∧
              word_before prev = false ∧ word_after post = false.
Proof.
  intros Hw. rewrite rmatch_word_eq. split.
  - destruct (xorb (word_before prev) (word_after s)) eqn:Hx; [| done].
    destruct (ci_strip w s) as [[mid post] |] eqn:Hs; [| done].
    apply ci_strip_sound in Hs as [-> Hmid].
    destruct (wordy_same_case w mid Hw Hmid) as [Hfirst Hlast].
    rewrite Hlast.
    rewrite (word_after_app _ _ Hfirst) in Hx.
    destruct (word_before prev); [done |].
    destruct (word_after post) eqn:Hpost; [done |].
    intros _. by exists mid, post.
  - intros (mid & post & -> & Hmid & Hprev & Hpost).
    destruct (wordy_same_case w mid Hw Hmid) as [Hfirst Hlast].
    rewrite Hprev, (word_after_app _ _ Hfirst).
    rewrite (ci_strip_complete w mid post Hmid).
    by rewrite Hlast, Hpost.
Qed.

Lemma search_from_spec r prev s :
  search_from true r prev s = true ↔
  ∃ pre t, s = pre +:+ t ∧ rmatch true r (last_or prev pre) t ≠ [].
Proof.
  revert prev. induction s as [| a s IH]; intros prev; simpl.
  - destruct (rmatch true r prev "") eqn:Hm.
    + split; [done |]. intros ([| ? ?] & t & Hs & Hne); simplify_eq/=.
    + split; [| done]. intros _. exists "", "". split; [done |]. simpl. by rewrite Hm.
  - destruct (rmatch true r prev (String a s)) eqn:Hm.
    + rewrite IH. split.
      * intros (pre & t & -> & Hne). by exists (String a pre), t.
      * intros ([| a' pre] & t & Hs & Hne); simplify_eq/=. by exists pre, t.
    + split; [| done]. intros _. exists "", (String a s). split; [done |].
      simpl. by rewrite Hm.
Qed.

Lemma rmatch_alt r1 r2 prev s :
  rmatch true (Alt r1 r2) prev s ≠ [] ↔
  rmatch true r1 prev s ≠ [] ∨ rmatch true r2 prev s ≠ [].
Proof.
  simpl. destruct (rmatch true r1 prev s), (rmatch true r2 prev s); simpl; naive_solver.
Qed.

Lemma wordy_mbed : wordy "mbed".
Proof. split; [done | by intros prev]. Qed.

Lemma wordy_segger : wordy "SEGGER MSD".
Proof. split; [done | by intros prev]. Qed.

(** C5: the pattern is found in a string exactly when the string contains
    [mbed] or [SEGGER MSD] as a whole word, whatever the case of the letters;
    it is found in "Mbed Virtual Serial" and not in "Mbedded-widget". *)
Theorem mbed_volume_name_match_whole_word :
  (∀ s, search mbed_volume_name_match s = true ↔
        whole_word_in "mbed" s ∨ whole_word_in "SEGGER MSD" s) ∧
  search mbed_volume_name_match "Mbed Virtual Serial" = true ∧
  search mbed_volume_name_match "Mbedded-widget" = false.
Proof.
  split; [| split; reflexivity].
  intros s. unfold search, mbed_volume_name_match, whole_word_in. cbn [expr flag_I].
  rewrite search_from_spec. split.
  - intros (pre & t & -> & Hm). apply rmatch_alt in Hm as [Hm | Hm].
    + apply (rmatch_word "mbed" _ _ wordy_mbed) in Hm as (mid & post & -> & ? & ? & ?).
      left. by exists pre, mid, post.
    + apply (rmatch_word "SEGGER MSD" _ _ wordy_segger) in Hm as (mid & post & -> & ? & ? & ?).
      right. by exists pre, mid, post.
  - intros [(pre & mid & post & -> & ? & ? & ?) | (pre & mid & post & -> & ? & ? & ?)];
      exists pre, (mid +:+ post); (split; [done |]); apply rmatch_alt.
    + left. apply (rmatch_word "mbed" _ _ wordy_mbed). by exists mid, post.
    + right. apply (rmatch_word "SEGGER MSD" _ _ wordy_segger). by exists mid, post.
Qed.

End Pattern.

Section TreeNavigator.

Lemma has_children_dict d k :
  has_children (PDict d) k = Ok (has_key IORegistryEntryChildren d).
Proof. reflexivity. Qed.

Lemma has_children_str s k :
  has_children (PStr s) k = Ok (substring_of IORegistryEntryChildren s).
Proof. reflexivity. Qed.

Lemma has_children_list l k :
  has_children (PList l) k = Ok (existsb (py_eq (PStr IORegistryEntryChildren)) l).
Proof. reflexivity. Qed.

Lemma carries_children_inv d :
  carries_children (PDict d) ↔ is_Some (assoc IORegistryEntryChildren d).
Proof.
  split.
  - intros (d' & Heq & Hd). by injection Heq as ->.
  - intros Hd. by exists d.
Qed.

(** C9: on nodes that are absent, mappings, sequences not holding the child
    key or strings not containing it, [has_children] answers true exactly
    for a mapping that contains the child key, and [get_children] returns
    the child collection of such a mapping and [None] otherwise; neither
    raises. *)
Theorem tree_navigator_plain (node : RawTree) :
  plain_node node →
  (∃ b : bool, has_children node IORegistryEntryChildren = Ok b ∧
               (b = true ↔ carries_children node)) ∧
  (∀ d child, node = PDict d → assoc IORegistryEntryChildren d = Some child →
              get_children node IORegistryEntryChildren = Ok child) ∧
  (¬ carries_children node → get_children node IORegistryEntryChildren = Ok PNone).
Proof.
  intros Hplain. destruct node as [ | s | z | l | d].
  - split; [exists false | split]; [| done | done].
    split; [done |]. split; [done |]. by intros (d & ? & _).
  - pose proof (has_children_str s IORegistryEntryChildren) as Hc.
    change (substring_of IORegistryEntryChildren s = false) in Hplain.
    rewrite Hplain in Hc. unfold get_children. rewrite Hc.
    split; [exists false | split]; [| done | done].
    split; [done |]. split; [done |]. by intros (d & ? & _).
  - done.
  - pose proof (has_children_list l IORegistryEntryChildren) as Hc.
    change (existsb (py_eq (PStr IORegistryEntryChildren)) l = false) in Hplain.
    rewrite Hplain in Hc. unfold get_children. rewrite Hc.
    split; [exists false | split]; [| done | done].
    split; [done |]. split; [done |]. by intros (d & ? & _).
  - unfold get_children. rewrite has_children_dict.
    split; [| split].
    + eexists; split; [done |]. rewrite carries_children_inv.
      unfold has_key. destruct (assoc _ d); split; try done; eauto.
    + intros d' child [= <-] Hc. unfold has_key. simpl. by rewrite Hc.
    + intros Hn. rewrite carries_children_inv in Hn. unfold has_key.
      destruct (assoc _ d); [| done]. destruct Hn; eauto.
Qed.

(** C9, witness: a registry node with a child collection. *)
Lemma tree_navigator_plain_witness :
  get_children (PDict [("IORegistryEntryName", PStr "Root");
                       (IORegistryEntryChildren, PList [])])
               IORegistryEntryChildren = Ok (PList []).
Proof.
  refine (proj1 (proj2 (tree_navigator_plain
            (PDict [("IORegistryEntryName", PStr "Root");
                    (IORegistryEntryChildren, PList [])]) I)) _ _ eq_refl eq_refl).
Defined.

(** C9, counterexample: a string scalar that spells the child key is no
    mapping, yet [has_children] answers true and [get_children] raises; on
    a number [has_children] itself raises. *)
Lemma tree_navigator_counterexample :
  has_children (PStr "IORegistryEntryChildren") IORegistryEntryChildren = Ok true ∧
  get_children (PStr "IORegistryEntryChildren") IORegistryEntryChildren = Raise TypeError ∧
  has_children (PInt 5) IORegistryEntryChildren = Raise TypeError.
Proof. repeat split; reflexivity. Qed.

End TreeNavigator.

Section TopologyFilter.

Lemma framed_ret {A} (a : A) : framed (mret a).
Proof. intros r. simpl. unfold collect_ret. by rewrite app_nil_r. Qed.

Lemma framed_lift {A} (m : result A) : framed (lift m).
Proof. intros r. unfold lift. simpl. by rewrite app_nil_r. Qed.

Lemma framed_extend l : framed (r_extend l).
Proof. intros r. reflexivity. Qed.

Lemma framed_append x : framed (r_append x).
Proof. intros r. reflexivity. Qed.

Lemma framed_bind {A B} (m : collect A) (f : A → collect B) :
  framed m → (∀ a, framed (f a)) → framed (m ≫= f).
Proof.
  intros Hm Hf r. unfold mbind, collect_bind. rewrite (Hm r).
  destruct (m []) as [r0 [a | e]]; simpl.
  - rewrite (Hf a (r ++ r0)), (Hf a r0). simpl. by rewrite app_assoc.
  - done.
Qed.

Lemma framed_try body : framed body → framed (try_except body).
Proof. intros Hb r. unfold try_except. rewrite (Hb r). reflexivity. Qed.

Lemma framed_for_each {A} (body : A → collect unit) l :
  (∀ x, framed (body x)) → framed (for_each body l).
Proof.
  intros Hb. induction l as [| x l IH]; simpl.
  - apply framed_ret.
  - apply framed_bind; [apply Hb | by intros _].
Qed.

Lemma framed_for_key {A} (body : A → collect unit) k d :
  (∀ v, framed (body v)) → framed (for_key body k d).
Proof.
  intros Hb. induction d as [| [k' v] d IH]; simpl.
  - apply framed_ret.
  - apply framed_bind; [| by intros _].
    destruct (String.eqb k' k); [apply Hb | apply framed_ret].
Qed.

Lemma framed_visit_item rec i : framed (visit_item rec i).
Proof.
  unfold visit_item.
  repeat first
    [ apply framed_bind; [| intros ?]
    | apply framed_lift | apply framed_ret | apply framed_extend | apply framed_append
    | match goal with |- framed (if ?b then _ else _) => destruct b end ].
Qed.

Lemma framed_for_items rec v : framed (for_items rec v).
Proof.
  destruct v; simpl;
    try (apply framed_bind; [apply framed_lift | intros ?]);
    apply framed_for_each; intros ?; apply framed_visit_item.
Qed.

Lemma visit_obj_dict d :
  visit_obj (PDict d) =
  for_key (fun v => try_except (for_items filter_system_profiler v)) "_items" d.
Proof. reflexivity. Qed.

Lemma framed_visit_obj o : framed (visit_obj o).
Proof.
  destruct o; try apply framed_lift.
  rewrite visit_obj_dict. apply framed_for_key. intros v.
  apply framed_try, framed_for_items.
Qed.

(** The recursive call on a string raises at [o.keys()]. *)
Lemma filter_system_profiler_str s :
  filter_system_profiler (PStr s) = Raise AttributeError.
Proof. reflexivity. Qed.

Lemma for_each_ext {A} (body body' : A → collect unit) l r :
  (∀ x r, x ∈ l → body x r = body' x r) → for_each body l r = for_each body' l r.
Proof.
  revert r. induction l as [| x l IH]; intros r Hb; [done |].
  simpl. unfold mbind, collect_bind. rewrite (Hb x r) by left.
  destruct (body' x r) as [r' [[] | e]]; [| done].
  apply IH. intros x' r'' ?. apply Hb. by right.
Qed.

Lemma visit_item_str rec rec' s r :
  rec (PStr s) = rec' (PStr s) → visit_item rec (PStr s) r = visit_item rec' (PStr s) r.
Proof.
  intros Hrec. unfold visit_item, mbind, collect_bind, lift. simpl.
  destruct (substring_of "_items" s); [by rewrite Hrec | done].
Qed.

(** [for_items] is the loop of the source for every shape of
    [o['_items']]. *)
Lemma for_items_uniform v r :
  for_items filter_system_profiler v r =
  (l ← lift (py_iter v); for_each (visit_item filter_system_profiler) l) r.
Proof.
  destruct v as [ | s | z | l | d]; try reflexivity.
  - unfold for_items, mbind, collect_bind, lift. simpl.
    apply for_each_ext. intros x r' Hx. clear -Hx.
    induction s as [| a s IH]; simpl in Hx; [by apply elem_of_nil in Hx |].
    apply elem_of_cons in Hx as [-> | Hx]; [by apply visit_item_str | by apply IH].
  - unfold for_items, mbind, collect_bind, lift. simpl.
    apply for_each_ext. intros x r' Hx.
    apply list_elem_of_fmap in Hx as ([k v] & -> & _). by apply visit_item_str.
Qed.

Lemma for_each_app {A} (body : A → collect unit) l1 l2 r :
  for_each body (l1 ++ l2) r =
  match for_each body l1 r with
  | (r', Ok _) => for_each body l2 r'
  | (r', Raise e) => (r', Raise e)
  end.
Proof.
  revert r. induction l1 as [| x l1 IH]; intros r; [done |].
  simpl. unfold mbind, collect_bind.
  destruct (body x r) as [r' [[] | e]]; [apply IH | done].
Qed.

Lemma for_key_app {A} (body : A → collect unit) k d1 d2 r :
  for_key body k (d1 ++ d2) r =
  match for_key body k d1 r with
  | (r', Ok _) => for_key body k d2 r'
  | (r', Raise e) => (r', Raise e)
  end.
Proof.
  revert r. induction d1 as [| [k' v] d1 IH]; intros r; [done |].
  simpl. unfold mbind, collect_bind.
  destruct ((if String.eqb k' k then body v else mret ()) r) as [r' [[] | e]];
    [apply IH | done].
Qed.

(** A mapping without [_name] makes the loop body raise, whatever it
    collected from its own [_items] first. *)
Lemma lacks_name_raises bad : lacks_name bad → item_raises bad.
Proof.
  intros (d & -> & Hname). unfold item_raises, visit_item, mbind, collect_bind, lift, r_extend.
  simpl. rewrite Hname.
  destruct (has_key "_items" d); [| by eexists].
  destruct (filter_system_profiler (PDict d)); by eexists.
Qed.

Lemma for_each_stops pre bad post post' r :
  item_raises bad →
  for_each (visit_item filter_system_profiler) (pre ++ bad :: post) r =
  for_each (visit_item filter_system_profiler) (pre ++ bad :: post') r.
Proof.
  intros [e Hbad]. rewrite !for_each_app.
  destruct (for_each (visit_item filter_system_profiler) pre r) as [r' [[] | e']]; [| done].
  simpl. unfold mbind, collect_bind.
  rewrite (framed_visit_item filter_system_profiler bad r'). by rewrite Hbad.
Qed.
Lemma visit_obj_returns d r : snd (visit_obj (PDict d) r) = Ok ().
Proof.
  rewrite visit_obj_dict. revert r.
  induction d as [| [k v] d IH]; intros r; [done |].
  simpl. unfold mbind, collect_bind.
  destruct (String.eqb k "_items"); simpl; apply IH.
Qed.

Lemma filter_system_profiler_dict d :
  filter_system_profiler (PDict d) = Ok (fst (visit_obj (PDict d) [])).
Proof.
  unfold filter_system_profiler, fsp_with, run.
  pose proof (visit_obj_returns d []) as H.
  destruct (visit_obj (PDict d) []) as [r out]. simpl in H. by rewrite H.
Qed.

Lemma filter_system_profiler_cons d os :
  filter_system_profiler (PList (PDict d :: os)) =
  (rest ← filter_system_profiler (PList os); Ok (fst (visit_obj (PDict d) []) ++ rest)).
Proof.
  unfold filter_system_profiler, fsp_with, run.
  change (for_each visit_obj (PDict d :: os) [])
    with ((_ ← visit_obj (PDict d); for_each visit_obj os) []).
  unfold mbind at 1, collect_bind.
  pose proof (visit_obj_returns d []) as H.
  destruct (visit_obj (PDict d) []) as [R out]. simpl in H. subst out. simpl fst.
  rewrite (framed_for_each visit_obj os framed_visit_obj R).
  destruct (for_each visit_obj os []) as [rest [[] | e]]; reflexivity.
Qed.

(** C10: when the loop body raises on a node of an [_items] list (as it
    does on a mapping without [_name]), the call still returns, and its
    result is the one obtained with the siblings after that node removed;
    the other elements of [obj], with their own [_items] lists, are
    processed all the same. *)
Theorem filter_system_profiler_siblings
    (before after : list (string * RawTree)) (pre post : list RawTree) (bad : RawTree) :
  item_raises bad →
  ∃ R : list RawTree,
    filter_system_profiler
      (PDict (before ++ ("_items", PList (pre ++ bad :: post)) :: after)) = Ok R ∧
    filter_system_profiler
      (PDict (before ++ ("_items", PList (pre ++ [bad])) :: after)) = Ok R ∧
    ∀ os, filter_system_profiler
            (PList (PDict (before ++ ("_items", PList (pre ++ bad :: post)) :: after) :: os))
          = (rest ← filter_system_profiler (PList os); Ok (R ++ rest)).
Proof.
  intros Hbad.
  assert (∀ r, visit_obj (PDict (before ++ ("_items", PList (pre ++ bad :: post)) :: after)) r
             = visit_obj (PDict (before ++ ("_items", PList (pre ++ [bad])) :: after)) r)
    as Hsame.
  { intros r. rewrite !visit_obj_dict, !for_key_app.
    destruct (for_key _ "_items" before r) as [r' [[] | e]]; [| done].
    simpl. unfold mbind, collect_bind, try_except. simpl.
    by rewrite (for_each_stops pre bad post [] r' Hbad). }
  eexists. split; [apply filter_system_profiler_dict |]. split.
  - rewrite filter_system_profiler_dict. by rewrite Hsame.
  - intros os. apply filter_system_profiler_cons.
Qed.
End TopologyFilter.

(** C10, witness: the nameless entry hides the board that follows it in
    the same list, not the board of the next list. *)
Lemma filter_system_profiler_siblings_witness :
  filter_system_profiler
    (PDict [("_items", PList [nameless_entry; topology_entry])]) = Ok [] ∧
  filter_system_profiler
    (PList [PDict [("_items", PList [nameless_entry; topology_entry])];
            PDict [("_items", PList [topology_entry])]]) = Ok [topology_entry].
Proof.
  destruct (filter_system_profiler_siblings [] [] [] [topology_entry] nameless_entry)
    as (R & Hhere & Hcut & Hothers).
  { apply lacks_name_raises. eexists. split; reflexivity. }
  vm_compute in Hcut. injection Hcut as <-.
  split; [exact Hhere |]. simpl app in Hothers. rewrite Hothers. reflexivity.
Defined.

Section DiskId.

Lemma disk_id_of_skipped sn dev :
  skipped_entry sn dev → disk_id_of dev sn = Ok None.
Proof.
  intros (d & -> & Hd). unfold disk_id_of, py_in, py_getitem, has_key. simpl.
  destruct (assoc "serial_num" d) as [v |] eqn:Hs; simpl; [| done].
  destruct (assoc "bsd_name" d) as [b |] eqn:Hb; simpl; [| done].
  destruct Hd as [? | [? | (v' & [= <-] & Hne)]]; [done | done |].
  by rewrite Hne.
Qed.

Lemma disk_id_of_matching sn bsd d :
  matching_entry sn bsd d → disk_id_of (PDict d) sn = Ok (Some bsd).
Proof.
  intros (v & Hs & Heq & Hb). unfold disk_id_of, py_in, py_getitem, has_key.
  simpl. rewrite Hs, Hb. simpl. by rewrite Heq.
Qed.

Lemma disk_id_of_opaque sn dev :
  opaque_entry dev → disk_id_of dev sn = Raise TypeError.
Proof. by intros [-> | (z & ->)]. Qed.

(** Only a matching mapping makes the scan return from inside the loop. *)
Lemma disk_id_of_found sn dev bsd :
  disk_id_of dev sn = Ok (Some bsd) → ∃ d, dev = PDict d ∧ matching_entry sn bsd d.
Proof.
  unfold disk_id_of. destruct dev as [ | s | z | l | d]; simpl; try done.
  - destruct (substring_of "serial_num" s); simpl; [| done].
    destruct (substring_of "bsd_name" s); simpl; done.
  - destruct (existsb _ l); simpl; [| done].
    destruct (existsb _ l); simpl; done.
  - unfold has_key. intros H. exists d. split; [done |]. unfold matching_entry.
    destruct (assoc "serial_num" d) as [v |] eqn:Hs; simpl in H; [| done].
    destruct (assoc "bsd_name" d) as [b |] eqn:Hb; simpl in H; [| done].
    destruct (py_eq v sn) eqn:Heq; simpl in H; [| done].
    injection H as <-. by exists v.
Qed.

Lemma scan_disk_id_skip sn pre rest :
  Forall (skipped_entry sn) pre →
  scan_disk_id (pre ++ rest) sn = scan_disk_id rest sn.
Proof.
  induction 1 as [| dev pre Hdev _ IH]; [done |].
  simpl. by rewrite (disk_id_of_skipped _ _ Hdev).
Qed.

Lemma scan_disk_id_found sn devs v :
  scan_disk_id devs sn = Ok v →
  v = PNone ∨ ∃ d, PDict d ∈ devs ∧ matching_entry sn v d.
Proof.
  induction devs as [| dev devs IH]; simpl.
  - intros [= <-]. by left.
  - destruct (disk_id_of dev sn) as [[bsd |] | e] eqn:Hdev; simpl; [| | done].
    + intros [= <-]. right.
      destruct (disk_id_of_found _ _ _ Hdev) as (d & -> & Hm).
      exists d. split; [left | done].
    + intros Hv. destruct (IH Hv) as [-> | (d & Hin & Hm)]; [by left |].
      right. exists d. split; [by right | done].
Qed.

(** A mapping that is no match is skipped. *)
Lemma skipped_unless_matching sn d :
  (∀ bsd, ¬ matching_entry sn bsd d) → skipped_entry sn (PDict d).
Proof.
  intros Hno. exists d. split; [done |].
  destruct (assoc "serial_num" d) as [v |] eqn:Hs; [| by left].
  destruct (assoc "bsd_name" d) as [b |] eqn:Hb; [| right; by left].
  right. right. exists v. split; [done |].
  destruct (py_eq v sn) eqn:Heq; [| done].
  destruct (Hno b). by exists v.
Qed.

Lemma Forall_skipped sn (ds : list (list (string * RawTree))) :
  Forall (fun d => ∀ bsd, ¬ matching_entry sn bsd d) ds →
  Forall (skipped_entry sn) (PDict <$> ds).
Proof.
  induction 1 as [| d ds Hd _ IH]; constructor; [| done].
  by apply skipped_unless_matching.
Qed.

(** Outside the lists that the topology filter returns: an entry that is
    [None] or a number, met before a match, ends the scan with [None]. *)
Lemma get_disk_id_opaque_entry sn pre dev post :
  Forall (skipped_entry sn) pre → opaque_entry dev →
  get_disk_id (PList (pre ++ dev :: post)) sn = PNone.
Proof.
  intros Hpre Hdev. unfold get_disk_id. simpl.
  rewrite (scan_disk_id_skip _ _ _ Hpre). simpl.
  by rewrite (disk_id_of_opaque _ _ Hdev).
Qed.

(** C8: on a list of topology matches, which are mappings, [get_disk_id]
    returns the [bsd_name] of the first entry that carries the queried
    serial number: the entries before it, which lack [serial_num] or
    [bsd_name] or carry another serial number, are skipped whatever else
    they contain, and the entries after it are not looked at; it returns
    [None] when no entry matches.  No exception leaves the function: its
    value is a tree. *)
Theorem get_disk_id_scan (sn : RawTree) (pre post : list (list (string * RawTree))) :
  Forall (fun d => ∀ bsd, ¬ matching_entry sn bsd d) pre →
  (∀ d bsd, matching_entry sn bsd d →
            get_disk_id (PList (PDict <$> (pre ++ d :: post))) sn = bsd) ∧
  get_disk_id (PList (PDict <$> pre)) sn = PNone.
Proof.
  intros Hpre%Forall_skipped. unfold get_disk_id. simpl. split.
  - intros d bsd Hm. rewrite fmap_app, fmap_cons.
    rewrite (scan_disk_id_skip _ _ _ Hpre). simpl.
    by rewrite (disk_id_of_matching _ _ _ Hm).
  - rewrite <- (app_nil_r (PDict <$> pre)).
    by rewrite (scan_disk_id_skip _ _ _ Hpre).
Qed.

(** C8, witness: an entry without disk id and an entry of another board,
    then the matching one. *)
Lemma get_disk_id_scan_witness :
  get_disk_id
    (PList (PDict <$> ([[("serial_num", PStr "9999")];
                        [("serial_num", PStr "1234"); ("bsd_name", PStr "disk3s1")]] ++
                       [("serial_num", PStr "9999"); ("bsd_name", PStr "disk2s1")]
                       :: []))) (PStr "9999") = PStr "disk2s1".
Proof.
  refine (proj1 (get_disk_id_scan (PStr "9999")
                   [[("serial_num", PStr "9999")];
                    [("serial_num", PStr "1234"); ("bsd_name", PStr "disk3s1")]] [] _) _ _ _).
  - repeat constructor; intros bsd (v & Hs & Heq & Hb); simplify_eq/=.
  - exists (PStr "9999"). repeat split; reflexivity.
Defined.

End DiskId.

Section Correlator.

Lemma assoc_with_assoc {A B} (f : A → B) dflt k d :
  assoc_with f dflt k d = match assoc k d with Some v => f v | None => dflt end.
Proof.
  induction d as [| [k' v] d IH]; simpl; [done |].
  by destruct (String.eqb k k').
Qed.

Lemma find_tty_dict d :
  find_tty (PDict d) =
    match assoc "IODialinDevice" d with
    | Some dialin => Ok dialin
    | None =>
        match assoc IORegistryEntryChildren d with
        | Some child => find_tty child
        | None => Ok PNone
        end
    end.
Proof.
  simpl. destruct (assoc "IODialinDevice" d); [done |]. apply assoc_with_assoc.
Qed.

(** [find_tty] satisfies the equation that the source text reads as. *)
Lemma find_tty_unfold obj :
  find_tty obj =
    (here ← (if isinstance_dict obj then py_in "IODialinDevice" obj else Ok false);
     if here : bool then py_getitem obj "IODialinDevice"
     else c ← has_children obj IORegistryEntryChildren;
          if c : bool
          then child ← get_children obj IORegistryEntryChildren; find_tty child
          else Ok PNone).
Proof.
  destruct obj as [ | s | z | l | d]; try reflexivity.
  - simpl. unfold get_children. rewrite has_children_str.
    destruct (substring_of _ s); reflexivity.
  - simpl. unfold get_children. rewrite has_children_list.
    destruct (existsb _ l); reflexivity.
  - rewrite find_tty_dict. unfold get_children.
    rewrite has_children_dict. unfold isinstance_dict, py_in, py_getitem, has_key.
    destruct (assoc "IODialinDevice" d); [done |].
    by destruct (assoc IORegistryEntryChildren d).
Qed.

(** A sequence of children is not searched: its elements are never
    visited. *)
Lemma find_tty_sequence l :
  plain_node (PList l) → find_tty (PList l) = Ok PNone.
Proof.
  intros Hl. change (existsb (py_eq (PStr IORegistryEntryChildren)) l = false) in Hl.
  rewrite find_tty_unfold. rewrite has_children_list, Hl. reflexivity.
Qed.

(** C7: on a matched node whose child collection is a sequence, as
    [ioreg -a] writes it, [find_tty] returns [None] although a child carries
    a dial-in device, and the entry recorded for the board has no tty. *)
Theorem find_tty_sequence_children :
  let node :=
    PDict [("IORegistryEntryName", PStr "mbed"); ("USB Serial Number", PStr "9999");
           ("IORegistryEntryChildren",
            PList [PDict [("IODialinDevice", PStr "/dev/tty.usbmodem1")]])] in
  find_tty node = Ok PNone ∧
  set_mbed_devs (PList [topology_entry]) node ∅
    = Ok {[ KStr "disk2s1" := UsbInfo (PStr "9999") PNone PNone PNone ]}.
Proof. split; vm_compute; reflexivity. Qed.

(** C4: a matched node with a serial number does not stop the walk: the
    matched node nested below it produces an entry of its own, in either
    iteration order of the items. *)
Theorem set_mbed_devs_descends :
  let mbed_drives :=
    PList [PDict [("_name", PStr "MBED"); ("serial_num", PStr "A"); ("bsd_name", PStr "disk2")];
           PDict [("_name", PStr "MBED"); ("serial_num", PStr "B"); ("bsd_name", PStr "disk3")]] in
  let below :=
    PDict [("IORegistryEntryName", PStr "mbed"); ("USB Serial Number", PStr "B")] in
  let expected : gmap key usb_info :=
    <[KStr "disk3" := UsbInfo (PStr "B") PNone PNone PNone]>
      (<[KStr "disk2" := UsbInfo (PStr "A") PNone PNone PNone]> ∅) in
  set_mbed_devs mbed_drives
    (PDict [("IORegistryEntryName", PStr "mbed"); ("USB Serial Number", PStr "A");
            ("child", below)]) ∅ = Ok expected ∧
  set_mbed_devs mbed_drives
    (PDict [("child", below);
            ("IORegistryEntryName", PStr "mbed"); ("USB Serial Number", PStr "A")]) ∅
    = Ok expected ∧
  correlate
    (PList [PDict [("IORegistryEntryName", PStr "mbed"); ("USB Serial Number", PStr "A");
                   ("child", below)]]) mbed_drives = Ok expected.
Proof. repeat split; vm_compute; reflexivity. Qed.









End Correlator.

Section ListMbedsProps.
Variable manufacture_ids : gmap string string.
Variable get_mbed_htm_target_id : string → option string.

Local Abbreviation platform_name := (platform_name manufacture_ids).
Local Abbreviation board_record := (board_record manufacture_ids).
Local Abbreviation resolve_identity := (resolve_identity manufacture_ids get_mbed_htm_target_id).
Local Abbreviation resolve_all := (resolve_all manufacture_ids get_mbed_htm_target_id).
Local Abbreviation list_mbeds := (list_mbeds manufacture_ids get_mbed_htm_target_id).

Lemma bind_Ok {A B} (m : result A) (f : A → result B) b :
  (x ← m; f x) = Ok b → ∃ a, m = Ok a ∧ f a = Ok b.
Proof. destruct m as [a | e]; [| done]. intros H. by exists a. Qed.

Lemma dict_get_Ok {V} (d : gmap key V) k v : dict_get d k = Ok v ↔ d !! k = Some v.
Proof. unfold dict_get. destruct (d !! k); split; congruence. Qed.

Lemma dict_get_Some {V} (d : gmap key V) k v : d !! k = Some v → dict_get d k = Ok v.
Proof. by intros ->%dict_get_Ok. Qed.

Lemma for_fold_cons {A S} (body : A → S → result S) x l s :
  for_fold body (x :: l) s = (s' ← body x s; for_fold body l s').
Proof. reflexivity. Qed.

Lemma valid_volumes_fold (volumes : gmap key usb_info) (l : list key)
    (acc : gmap key usb_info) :
  (∀ k, k ∈ l → is_Some (volumes !! k)) →
  ∃ valid : gmap key usb_info, for_fold (fun k valid => u ← dict_get volumes k; Ok (<[k := u]> valid)) l acc = Ok valid
           ∧ dom valid = dom acc ∪ (list_to_set l : gset key).
Proof.
  revert acc. induction l as [| k l IH]; intros acc Hl.
  - exists acc. split; [done |]. set_solver.
  - destruct (Hl k) as [u Hu]; [left |].
    rewrite for_fold_cons, (dict_get_Some _ _ _ Hu). simpl.
    destruct (IH (<[k := u]> acc)) as (valid & Hv & Hdom).
    { intros k' ?. apply Hl. by right. }
    exists valid. split; [done |]. rewrite Hdom, dom_insert_L. set_solver.
Qed.

Lemma valid_volumes_dom volumes mounts :
  ∃ valid, valid_volumes volumes mounts = Ok valid ∧
           dom valid = intersection volumes mounts.
Proof.
  destruct (valid_volumes_fold volumes (elements (intersection volumes mounts)) ∅)
    as (valid & Hv & Hdom).
  { intros k Hk. apply elem_of_elements in Hk. unfold intersection in Hk.
    apply elem_of_dom. set_solver. }
  exists valid. split; [done |].
  rewrite Hdom, dom_empty_L, list_to_set_elements_L. set_solver.
Qed.

Lemma for_list_Forall2 {A B} (f : A → result B) l ys :
  for_list f l = Ok ys → Forall2 (fun x y => f x = Ok y) l ys.
Proof.
  revert ys. induction l as [| x l IH]; intros ys; simpl.
  - intros [= <-]. constructor.
  - destruct (f x) as [y | e] eqn:Hx; simpl; [| done].
    destruct (for_list f l) as [ys' | e]; simpl; [| done].
    intros [= <-]. constructor; [done | by apply IH].
Qed.

Lemma for_list_returns {A B} (f : A → result B) l :
  (∀ x, x ∈ l → returns (f x) = true) → returns (for_list f l) = true.
Proof.
  induction l as [| x l IH]; intros Hl; simpl; [done |].
  pose proof (Hl x ltac:(left)) as Hx.
  destruct (f x) as [y | e]; simpl; [| done].
  assert (returns (for_list f l) = true) as Hrest.
  { apply IH. intros x' ?. apply Hl. by right. }
  by destruct (for_list f l).
Qed.

Lemma platform_name_str s :
  platform_name (PStr s) = Ok (of_option (manufacture_ids !! str_take 4 s)).
Proof. reflexivity. Qed.

Lemma target_id_serial u : target_id u = serial u.
Proof. unfold target_id. by destruct (serial u). Qed.

(** What the comprehension puts into a record. *)
Lemma board_record_Ok volumes mounts k rec :
  board_record volumes mounts k = Ok rec →
  ∃ u mp name, volumes !! k = Some u ∧ mounts !! k = Some mp ∧
    platform_name (target_id u) = Ok name ∧
    rec = <[platform_name_k := name]>
          (<[target_id_k := target_id u]>
           (<[serial_port := tty u]>
            (<[mount_point := of_option mp]> ∅))).
Proof.
  unfold board_record. intros H.
  apply bind_Ok in H as (mp & Hmp%dict_get_Ok & H).
  apply bind_Ok in H as (u & Hu%dict_get_Ok & H).
  apply bind_Ok in H as (name & Hname & [= <-]).
  by exists u, mp, name.
Qed.

Lemma board_record_lookup volumes mounts k rec :
  board_record volumes mounts k = Ok rec →
  rec !! KNone = None ∧
  ∃ u mp, volumes !! k = Some u ∧ mounts !! k = Some mp ∧
    rec !! mount_point = Some (of_option mp) ∧
    rec !! serial_port = Some (tty u) ∧
    rec !! target_id_k = Some (target_id u).
Proof.
  intros (u & mp & name & Hu & Hmp & _ & ->)%board_record_Ok.
  split; [done |]. exists u, mp. by repeat split.
Qed.

(** The identity pass leaves the two fields of the join alone and keeps
    the keys strings. *)
Lemma resolve_identity_keeps (rec rec' : BoardRecord) flag flag' :
  resolve_identity rec flag = Ok (rec', flag') →
  rec' !! mount_point = rec !! mount_point ∧
  rec' !! serial_port = rec !! serial_port ∧
  (rec !! KNone = None → rec' !! KNone = None ∧ flag' = flag).
Proof.
  unfold resolve_identity, dict_has.
  destruct (rec !! KNone) as [x |] eqn:Hnone.
  { rewrite bool_decide_true by eauto. intros [= <- <-]. repeat split; done. }
  rewrite bool_decide_false by (by intros [? ?]).
  intros H. apply bind_Ok in H as (mp & _ & H).
  destruct (truthy mp); [| by injection H as <- <-].
  apply bind_Ok in H as (htm & _ & H).
  apply bind_Ok in H as (rec1 & Hrec1 & [= <- <-]).
  destruct (truthy htm).
  - apply bind_Ok in Hrec1 as (usb_id & _ & H).
    apply bind_Ok in H as (prefix & _ & H).
    apply bind_Ok in H as (name & _ & [= <-]).
    repeat split; by rewrite !lookup_insert_ne.
  - injection Hrec1 as <-. repeat split; by rewrite !lookup_insert_ne.
Qed.

Lemma resolve_all_Forall2 (result result' : list BoardRecord) flag flag' :
  resolve_all result flag = Ok (result', flag') →
  Forall2 (fun rec rec' => ∃ f f', resolve_identity rec f = Ok (rec', f')) result result'.
Proof.
  revert result' flag flag'. induction result as [| rec rest IH]; intros result' flag flag'; simpl.
  - intros [= <- _]. constructor.
  - intros H. apply bind_Ok in H as ([rec' f1] & Hrec & H).
    apply bind_Ok in H as ([rest' f2] & Hrest & [= <- _]).
    constructor; [by exists flag, f1 | by eapply IH].
Qed.

(** [None] is never a key of a record, so the test [None in result[i]]
    never fires and the flag keeps the value it was given. *)
Lemma resolve_all_flag (result result' : list BoardRecord) flag flag' :
  Forall (fun rec : BoardRecord => rec !! KNone = None) result →
  resolve_all result flag = Ok (result', flag') → flag' = flag.
Proof.
  intros Hall. revert result' flag flag'.
  induction Hall as [| rec rest Hrec _ IH]; intros result' flag flag'; simpl.
  - by intros [= _ <-].
  - intros H. apply bind_Ok in H as ([rec' f1] & Hr & H).
    apply bind_Ok in H as ([rest' f2] & Hrest & [= _ <-]).
    apply resolve_identity_keeps in Hr as (_ & _ & Hk).
    destruct (Hk Hrec) as [_ ->]. by eapply IH.
Qed.

Lemma str_take_idemp n s : str_take n (str_take n s) = str_take n s.
Proof.
  revert s. induction n as [| n IH]; intros [| a s]; simpl; try done.
  by rewrite IH.
Qed.

Lemma truthy_of_option o :
  truthy (of_option o) = true ↔ ∃ s, o = Some s ∧ s ≠ "".
Proof.
  destruct o as [s |]; simpl.
  - destruct (String.eqb_spec s ""); simpl; split; try done.
    + by intros (? & [= <-] & ?).
    + intros _. by exists s.
  - split; [done | by intros (? & ? & _)].
Qed.

Lemma resolve_identity_returns (rec : BoardRecord) flag mp :
  rec !! KNone = None →
  rec !! mount_point = Some (of_option mp) →
  is_Some (rec !! target_id_k) →
  ∃ rec', resolve_identity rec flag = Ok (rec', flag).
Proof.
  intros Hnone Hmp [usb_id Hid]. unfold resolve_identity, dict_has.
  rewrite bool_decide_false by (rewrite Hnone; by intros [? ?]).
  rewrite (dict_get_Some _ _ _ Hmp). simpl.
  destruct (truthy (of_option mp)) eqn:Ht; [| by eexists].
  apply truthy_of_option in Ht as (s & -> & _). simpl.
  destruct (truthy (of_option (get_mbed_htm_target_id s))) eqn:Hx; [| by eexists].
  apply truthy_of_option in Hx as (X & -> & _).
  rewrite (dict_get_Some _ _ _ Hid). simpl. by eexists.
Qed.

Lemma resolve_all_returns (result : list BoardRecord) flag :
  Forall (fun rec : BoardRecord =>
            rec !! KNone = None ∧ (∃ mp, rec !! mount_point = Some (of_option mp)) ∧
            is_Some (rec !! target_id_k)) result →
  ∃ result', resolve_all result flag = Ok (result', flag).
Proof.
  induction 1 as [| rec rest (Hnone & [mp Hmp] & Hid) _ [rest' IH]]; simpl.
  - by eexists.
  - destruct (resolve_identity_returns rec flag mp Hnone Hmp Hid) as [rec' ->].
    simpl. rewrite IH. simpl. by eexists.
Qed.


(** C1: whenever [list_mbeds] returns, its records are in one-to-one
    correspondence with a duplicate-free list of the disk ids that are keys
    of both the correlated-device map and the mount table; and it returns
    whenever the serial numbers of the surviving devices are strings. *)
Theorem list_mbeds_intersection (volumes : gmap key usb_info)
    (mounts : gmap key (option string)) :
  (string_serials volumes mounts → returns (list_mbeds volumes mounts) = true) ∧
  (∀ result flag, list_mbeds volumes mounts = Ok (result, flag) →
     ∃ ks : list key, NoDup ks ∧
       (∀ k, k ∈ ks ↔ is_Some (volumes !! k) ∧ is_Some (mounts !! k)) ∧
       Forall2 (record_of volumes mounts) ks result).
Proof.
  destruct (valid_volumes_dom volumes mounts) as (valid & Hvalid & Hdom).
  assert (∀ k, k ∈ elements (dom valid) ↔
               is_Some (volumes !! k) ∧ is_Some (mounts !! k)) as Hks.
  { intros k. rewrite elem_of_elements, Hdom. unfold intersection.
    by rewrite elem_of_intersection, !elem_of_dom. }
  unfold list_mbeds. rewrite Hvalid. simpl. split.
  - intros Hser.
    destruct (for_list (board_record volumes mounts) (elements (dom valid)))
      as [result | e] eqn:Hres.
    + simpl. destruct (resolve_all_returns result 0) as [result' ->]; [| done].
      apply for_list_Forall2 in Hres. clear -Hres.
      induction Hres as [| k rec ks result Hrec _ IH]; constructor; [| done].
      apply board_record_lookup in Hrec as (Hnone & u & mp & _ & _ & Hmp & _ & Hid).
      eauto.
    + assert (returns (for_list (board_record volumes mounts) (elements (dom valid))) = true)
        as Hret; [| by rewrite Hres in Hret].
      apply for_list_returns. intros k [[u Hu] [mp Hmp]]%Hks.
      destruct (Hser k u Hu) as [s Hs]; [by eexists |].
      unfold board_record. rewrite (dict_get_Some _ _ _ Hmp), (dict_get_Some _ _ _ Hu).
      simpl. rewrite target_id_serial, Hs. done.
  - intros result flag H. apply bind_Ok in H as (result0 & Hres & Hall).
    exists (elements (dom valid)). split; [apply NoDup_elements |]. split; [done |].
    apply for_list_Forall2 in Hres. apply resolve_all_Forall2 in Hall.
    eapply Forall2_trans; [| exact Hres | exact Hall].
    intros k rec rec' Hrec (f & f' & Hstep). simpl in Hrec.
    apply board_record_lookup in Hrec as (_ & u & mp & Hu & Hmp & Hm & Hs & _).
    apply resolve_identity_keeps in Hstep as (Hm' & Hs' & _).
    exists u, mp. repeat split; congruence.
Qed.


#[local] Opaque str_take.

#[local] Transparent str_take.


End ListMbedsProps.

Section Records.
Variable manufacture_ids : gmap string string.
Variable get_mbed_htm_target_id : string → option string.
Local Abbreviation platform_name := (platform_name manufacture_ids).
Local Abbreviation board_record := (board_record manufacture_ids).
Local Abbreviation resolve_identity := (resolve_identity manufacture_ids get_mbed_htm_target_id).
Local Abbreviation resolve_all := (resolve_all manufacture_ids get_mbed_htm_target_id).
Local Abbreviation list_mbeds := (list_mbeds manufacture_ids get_mbed_htm_target_id).

(** A string whose first four characters are not in the table has no
    platform name. *)
Lemma platform_name_unknown s :
  manufacture_ids !! str_take 4 s = None → platform_name (PStr s) = Ok PNone.
Proof. intros H. rewrite platform_name_str. by rewrite H. Qed.

(** The [else] branch of [target_id] would make [platform_name] slice
    [None]; no correlated device takes it (lemma [correlate_serials]). *)
Lemma platform_name_absent : platform_name PNone = Raise TypeError.
Proof. reflexivity. Qed.


(** C3: [ERRORLEVEL_FLAG] is 0 after every run that returns; in
    particular it is 0 for an unmounted board without tty, whose record has
    two [None] fields. *)
Theorem list_mbeds_flag_never_set :
  (∀ volumes mounts,
     match list_mbeds volumes mounts with
     | Ok (_, flag) => flag = 0
     | Raise _ => True
     end) ∧
  ∃ rec : BoardRecord,
    list_mbeds {[KStr "disk2s1" := UsbInfo (PStr "9999") PNone PNone PNone]}
               {[KStr "disk2s1" := None]} = Ok ([rec], 0) ∧
    rec !! mount_point = Some PNone ∧ rec !! serial_port = Some PNone.
Proof.
  split.
  - intros volumes mounts.
    destruct (list_mbeds volumes mounts) as [[result flag] | e] eqn:H; [| done].
    unfold list_mbeds in H.
    apply bind_Ok in H as (valid & _ & H).
    apply bind_Ok in H as (result0 & Hres & Hall).
    eapply resolve_all_flag; [| exact Hall].
    apply for_list_Forall2 in Hres. clear -Hres.
    induction Hres as [| k rec ks result Hrec _ IH]; constructor; [| done].
    by apply (board_record_lookup manufacture_ids) in Hrec as [? _].
  - eexists. split; [| split]; vm_compute; reflexivity.
Qed.

#[local] Opaque str_take.

(** C6: on a record whose mount point is a non-empty string, a non-empty
    identifier [X] read from the volume replaces [target_id], the former
    [target_id] is kept under [target_id_usb_id], [X] is stored under
    [target_id_mbed_htm] and [platform_name] is looked up again from the
    first four characters of [X]; when the reader yields [None] or the
    empty string, only [target_id_mbed_htm] is added, with that value; a
    record whose mount point is [None] or the empty string is left as it
    is; and the record that the comprehension built has no
    [target_id_mbed_htm] and no [target_id_usb_id] key. *)
Theorem identity_resolver (rec : BoardRecord) (flag : Z) (mount usb_id : RawTree) :
  rec !! KNone = None →
  rec !! mount_point = Some mount →
  rec !! target_id_k = Some usb_id →
  (∀ mp X, mount = PStr mp → mp ≠ "" →
     get_mbed_htm_target_id mp = Some X → X ≠ "" →
     ∃ rec' : BoardRecord, resolve_identity rec flag = Ok (rec', flag) ∧
       rec' !! target_id_k = Some (PStr X) ∧
       rec' !! target_id_usb_id = Some usb_id ∧
       rec' !! target_id_mbed_htm = Some (PStr X) ∧
       rec' !! platform_name_k = Some (of_option (manufacture_ids !! str_take 4 X)) ∧
       rec' !! mount_point = rec !! mount_point ∧
       rec' !! serial_port = rec !! serial_port) ∧
  (∀ mp o, mount = PStr mp → mp ≠ "" →
     get_mbed_htm_target_id mp = o → o = None ∨ o = Some "" →
     resolve_identity rec flag = Ok (<[target_id_mbed_htm := of_option o]> rec, flag)) ∧
  (mount = PNone ∨ mount = PStr "" → resolve_identity rec flag = Ok (rec, flag)) ∧
  (∀ volumes mounts k, board_record volumes mounts k = Ok rec →
     rec !! target_id_mbed_htm = None ∧ rec !! target_id_usb_id = None).
Proof.
  intros Hnone Hmp Hid.
  unfold resolve_identity, dict_has.
  rewrite bool_decide_false by (rewrite Hnone; by intros [? ?]).
  rewrite (dict_get_Some _ _ _ Hmp). rewrite bind_Ok_l.
  split; [| split; [| split]].
  - intros mp X -> Hne HX HXne. simpl.
    destruct (String.eqb_spec mp ""); [done |]. simpl. rewrite HX. simpl.
    destruct (String.eqb_spec X ""); [done |]. simpl.
    unfold dict_get. rewrite Hid. simpl. rewrite str_take_idemp.
    eexists. split; [done |].
    repeat split; by simplify_map_eq.
  - intros mp o -> Hne Ho Hcases. simpl.
    destruct (String.eqb_spec mp ""); [done |]. simpl. rewrite Ho.
    destruct Hcases as [-> | ->]; reflexivity.
  - by intros [-> | ->].
  - intros volumes mounts k (u & mp & name & _ & _ & _ & ->)%board_record_Ok.
    unfold target_id_mbed_htm, target_id_usb_id, platform_name_k, target_id_k,
      serial_port, mount_point.
    split; by simplify_map_eq.
Qed.
#[local] Transparent str_take.
End Records.

(** C1, witness: scenario C. *)
Lemma list_mbeds_intersection_witness :
  returns (list_mbeds scenario_ids scenario_htm scenario_volumes scenario_mounts) = true.
Proof.
  apply (proj1 (list_mbeds_intersection scenario_ids scenario_htm
                  scenario_volumes scenario_mounts)).
  intros k u Hu _. unfold scenario_volumes in Hu.
  apply lookup_singleton_Some in Hu as [_ <-].
  eexists. reflexivity.
Defined.


(** C6, witness: scenario C. *)
Lemma identity_resolver_witness :
  ∃ rec' : BoardRecord,
    resolve_identity scenario_ids scenario_htm scenario_record 0 = Ok (rec', 0) ∧
    rec' !! target_id_k = Some (PStr "0200ABCDEF") ∧
    rec' !! target_id_usb_id = Some (PStr "9999") ∧
    rec' !! target_id_mbed_htm = Some (PStr "0200ABCDEF") ∧
    rec' !! platform_name_k = Some (PStr "KL25Z").
Proof.
  destruct (proj1 (identity_resolver scenario_ids scenario_htm scenario_record 0
                     (PStr "/Volumes/MBED") (PStr "9999")
                     eq_refl eq_refl eq_refl)
                  "/Volumes/MBED" "0200ABCDEF"
                  eq_refl ltac:(discriminate) eq_refl ltac:(discriminate))
    as (rec' & Hrun & Hid & Husb & Hhtm & Hname & _).
  exists rec'. repeat split; assumption.
Defined.

(** C6, counterexample: a mount point that is the empty string is not
    absent, yet the volume is not read and no [target_id_mbed_htm] key is
    written; and an identifier that is the empty string is not absent, yet
    [target_id] keeps the USB serial number. *)
Lemma identity_resolver_counterexample :
  (∃ rec : BoardRecord,
     list_mbeds scenario_ids (fun _ => Some "0200ABCDEF") scenario_volumes
                {[ KStr "disk2s1" := Some "" ]} = Ok ([rec], 0) ∧
     rec !! mount_point = Some (PStr "") ∧
     rec !! target_id_k = Some (PStr "9999") ∧
     rec !! target_id_mbed_htm = None) ∧
  (∃ rec : BoardRecord,
     list_mbeds scenario_ids (fun _ => Some "") scenario_volumes scenario_mounts
       = Ok ([rec], 0) ∧
     rec !! target_id_k = Some (PStr "9999") ∧
     rec !! target_id_usb_id = None).
Proof.
  split; eexists; repeat split; vm_compute; reflexivity.
Qed.
